(** * Rule L027: references should be qualified when a select has more
    than one referenced table or view.

  A shallow embedding of [src/sqlfluff/rules/L027.py] and the properties
  of its two methods, [_is_qualified_reference] (the classifier) and
  [_lint_references_and_aliases] (the scanner). *)

From Stdlib Require Import NArith.
From Stdlib Require Import Ascii.
From Stdlib Require String.
From stdpp Require Import base decidable list strings.


(** ** Python strings *)

(** A Python [str] is a sequence of code points. *)
Abbreviation str := (list N).

(** A literal of the source, all of them ASCII: the codes of its
  characters. *)
Definition py (literal : string) : str :=
N_of_ascii <$> String.list_ascii_of_string literal.

(** What [repr] needs of the Unicode database of the interpreter: whether a
  code point from 128 on is printable.  The table changes with the version
  of the interpreter and is a parameter. *)
Class UnicodeData := unicode_isprintable : N → bool.

Module PyStr.

Definition squote : N := 39.
Definition dquote : N := 34.
Definition backslash : N := 92.

(** [c in s] for a one-character [c]. *)
Definition contains (c : N) (s : str) : bool := bool_decide (c ∈ s).

Definition hexdigit (n : N) : N :=
  nth (N.to_nat n) (py "0123456789abcdef") 48%N.

(** The last [width] hexadecimal digits of [n], as [%0<width>x] writes
    them. *)
Fixpoint hex (width : nat) (n : N) : str :=
  match width with
  | O => []
  | S w => hex w (n / 16) ++ [hexdigit (n mod 16)]
  end.

Section Repr.

Context `{!UnicodeData}.

(** [str.isprintable] on one code point: on ASCII the codes 32 to 126,
    elsewhere what the database says. *)
Definition isprintable (c : N) : bool :=
  if (c <? 128)%N then (32 <=? c)%N && (c <? 127)%N
  else unicode_isprintable c.

(** What [repr] writes for one character, given the enclosing quote. *)
Definition repr_char (quote c : N) : str :=
  if (c =? quote)%N || (c =? backslash)%N then [backslash; c]
  else if (c =? 9)%N then py "\t"
  else if (c =? 10)%N then py "\n"
  else if (c =? 13)%N then py "\r"
  else if (c <? 32)%N || (c =? 127)%N then py "\x" ++ hex 2 c
  else if (c <? 127)%N then [c]
  else if unicode_isprintable c then [c]
  else if (c <=? 255)%N then py "\x" ++ hex 2 c
  else if (c <=? 65535)%N then py "\u" ++ hex 4 c
  else py "\U" ++ hex 8 c.

Fixpoint repr_body (quote : N) (s : str) : str :=
  match s with
  | [] => []
  | c :: s' => repr_char quote c ++ repr_body quote s'
  end.

(** [repr(s)]: single quotes, unless [s] holds a single quote and no
    double quote. *)
Definition repr (s : str) : str :=
  let quote := if contains squote s && negb (contains dquote s)
               then dquote else squote in
  quote :: repr_body quote s ++ [quote].

(** Characters that [repr] copies unchanged between single quotes. *)
Definition plain_char (c : N) : bool :=
  isprintable c && negb (c =? squote)%N && negb (c =? backslash)%N.

Definition plain (s : str) : bool := forallb plain_char s.

End Repr.

End PyStr.

(** ** Data model *)

(** Modelled from the spec: the segment class of the parser is not part of
  this file's source.  A column reference is a value record with its raw
  text, a precomputed qualification flag (presence of a dotted prefix) and
  the identity used for membership tests; [pos_marker] is that identity,
  so two references with the same raw text at different places of the
  statement are different values. *)
Record BaseSegment := {
pos_marker : nat;
raw : str;
is_qualified : bool
}.

Global Instance BaseSegment_eq_dec : EqDecision BaseSegment.
Proof. solve_decision. Defined.

(** Modelled from the spec: the qualification status is one of the two
  strings, decided by the dotted prefix. *)
Definition qualification (reference : BaseSegment) : str :=
if is_qualified reference then py "qualified" else py "unqualified".

(** A table or view of the FROM/JOIN graph. *)
Record AliasInfo := {
ref_str : str;
aliased : bool
}.

(** A select-list alias with the references of its own expression. *)
Record ColumnAliasInfo := {
alias_identifier_name : str;
column_reference_segments : list BaseSegment
}.

Global Instance AliasInfo_eq_dec : EqDecision AliasInfo.
Proof. solve_decision. Defined.

Global Instance ColumnAliasInfo_eq_dec : EqDecision ColumnAliasInfo.
Proof. solve_decision. Defined.

Record LintResult := {
anchor : BaseSegment;
description : str
}.

Global Instance LintResult_eq_dec : EqDecision LintResult.
Proof. solve_decision. Defined.

(** ** The rule *)

Module Rule_L027.

Definition _is_qualified_reference
    (reference : BaseSegment)
    (table_alias_names col_alias_names using_cols : list str)
    (dialect_name : option str) : bool :=
  negb (bool_decide (qualification reference = py "unqualified"))
  || bool_decide (raw reference ∈ col_alias_names)
  || bool_decide (raw reference ∈ using_cols)
  || (bool_decide (dialect_name = Some (py "redshift"))
      && bool_decide (raw reference ∈ table_alias_names)).

(** The comprehension
    [[c.alias_identifier_name for c in col_aliases
      if r not in c.column_reference_segments]]. *)
Fixpoint col_alias_names (r : BaseSegment) (col_aliases : list ColumnAliasInfo)
    : list str :=
  match col_aliases with
  | [] => []
  | c :: rest =>
      if bool_decide (r ∉ column_reference_segments c)
      then alias_identifier_name c :: col_alias_names r rest
      else col_alias_names r rest
  end.

Section Scanner.

Context `{!UnicodeData}.

(** The text of a violation, an f-string with [{r.raw!r}]. *)
Definition violation_description (r : BaseSegment) : str :=
  py "Unqualified reference " ++ PyStr.repr (raw r) ++ py " found in "
  ++ py "select with more than one referenced table/view.".

(** One turn of the loop over [references]. *)
Definition lint_reference
    (table_alias_names : list str) (col_aliases : list ColumnAliasInfo)
    (using_cols : list str) (dialect_name : option str)
    (violation_buff : list LintResult) (r : BaseSegment) : list LintResult :=
  if negb (_is_qualified_reference r table_alias_names
             (col_alias_names r col_aliases) using_cols dialect_name)
  then violation_buff ++
         [ {| anchor := r; description := violation_description r |} ]
  else violation_buff.

Definition _lint_references_and_aliases
    (table_aliases : list AliasInfo)
    (standalone_aliases : list str)
    (references : list BaseSegment)
    (col_aliases : list ColumnAliasInfo)
    (using_cols : list str)
    (dialect_name : option str)
    (parent_select : option BaseSegment) : option (list LintResult) :=
  if bool_decide (length table_aliases ≤ 1) then None
  else
    let table_alias_names := ref_str <$> table_aliases in
    let violation_buff :=
      foldl (lint_reference table_alias_names col_aliases using_cols dialect_name)
            [] references in
    match violation_buff with
    | [] => None
    | _ :: _ => Some violation_buff
    end.

End Scanner.

End Rule_L027.

Import Rule_L027.

(** The violations a result stands for: [None] reports nothing. *)
Definition violations (res : option (list LintResult)) : list LintResult :=
default [] res.

(** ** Helper definitions for the statements *)

(** The record the scanner builds for a failing reference. *)
Definition violation_of `{!UnicodeData} (r : BaseSegment) : LintResult :=
{| anchor := r; description := violation_description r |}.

(** A reference fails when the classifier, called as the scanner calls it,
  answers false. *)
Definition fails (table_aliases : list AliasInfo)
  (col_aliases : list ColumnAliasInfo) (using_cols : list str)
  (dialect_name : option str) (r : BaseSegment) : Prop :=
_is_qualified_reference r (ref_str <$> table_aliases)
  (col_alias_names r col_aliases) using_cols dialect_name = false.

Global Instance fails_dec ta ca uc dn r : Decision (fails ta ca uc dn r).
Proof. unfold fails. apply _. Defined.

(** The description as the specification words it: the raw text between
  single quotes. *)
Definition single_quoted_description (raw_text : str) : str :=
py "Unqualified reference '" ++ raw_text
++ py "' found in select with more than one referenced table/view.".

(** Every character of a text is printable: the text shows on one line,
  without control characters. *)
Definition all_printable `{!UnicodeData} (s : str) : bool :=
forallb PyStr.isprintable s.

(** The text is a Python string: its code points are below 0x110000. *)
Definition valid_str (s : str) : Prop := Forall (λ c, (c < 1114112)%N) s.

(** The value of a lower-case hexadecimal digit. *)
Definition unhex (d : N) : option N :=
(fix find (digits : str) (n : N) : option N :=
   match digits with
   | [] => None
   | h :: rest => if (d =? h)%N then Some n else find rest (n + 1)%N
   end)
  (py "0123456789abcdef") 0%N.

(** Reading [width] hexadecimal digits, most significant first. *)
Fixpoint unhex_digits (width : nat) (acc : N) (s : str) : option (N * str) :=
match width with
| O => Some (acc, s)
| S w =>
    match s with
    | [] => None
    | d :: rest =>
        match unhex d with
        | Some v => unhex_digits w (16 * acc + v) rest
        | None => None
        end
    end
end.

(** Reading back the first character written by [PyStr.repr_char]: the
  character and the rest of the text. *)
Definition unrepr_char (s : str) : option (N * str) :=
match s with
| [] => None
| c :: rest =>
    if (c =? PyStr.backslash)%N then
      match rest with
      | [] => None
      | d :: rest' =>
          if (d =? 116)%N then Some (9%N, rest')
          else if (d =? 110)%N then Some (10%N, rest')
          else if (d =? 114)%N then Some (13%N, rest')
          else if (d =? 120)%N then unhex_digits 2 0 rest'
          else if (d =? 117)%N then unhex_digits 4 0 rest'
          else if (d =? 85)%N then unhex_digits 8 0 rest'
          else Some (d, rest')
      end
    else Some (c, rest)
end.

(** ** Statements used as examples *)

(** [SELECT a, b FROM foo LEFT JOIN vee ON vee.a = foo.a], the anti-pattern
    of the rule's documentation. *)
Definition foo := {| ref_str := py "foo"; aliased := false |}.
Definition vee := {| ref_str := py "vee"; aliased := false |}.
Definition ref_a := {| pos_marker := 7; raw := py "a"; is_qualified := false |}.
Definition ref_b := {| pos_marker := 10; raw := py "b"; is_qualified := false |}.
Definition ref_foo_a :=
  {| pos_marker := 7; raw := py "foo.a"; is_qualified := true |}.

(** [SELECT a AS a ... ORDER BY a]: the reference inside the alias and the
    one in ORDER BY have the same raw text. *)
Definition ref_a_order_by :=
  {| pos_marker := 40; raw := py "a"; is_qualified := false |}.
Definition alias_a :=
  {| alias_identifier_name := py "a"; column_reference_segments := [ref_a] |}.
Definition alias_b :=
  {| alias_identifier_name := py "b"; column_reference_segments := [ref_foo_a] |}.

(** [SELECT sup FROM tbl AS sup, tbl2]. *)
Definition sup := {| ref_str := py "sup"; aliased := true |}.
Definition tbl2 := {| ref_str := py "tbl2"; aliased := false |}.
Definition ref_sup :=
  {| pos_marker := 7; raw := py "sup"; is_qualified := false |}.

(** [SELECT id, b FROM foo JOIN vee USING (id)]. *)
Definition ref_id :=
  {| pos_marker := 7; raw := py "id"; is_qualified := false |}.

(** A backtick-quoted identifier with an apostrophe inside. *)
Definition ref_its :=
  {| pos_marker := 7; raw := py "`it's`"; is_qualified := false |}.

(** A quoted identifier that holds a line break. *)
Definition ref_two_lines :=
  {| pos_marker := 7;
     raw := [PyStr.dquote; 97; 10; 98; PyStr.dquote]%N;
     is_qualified := false |}.

(** An identifier of two CJK characters, U+65E5 and U+672C, followed by the
    line separator U+2028. *)
Definition ref_cjk :=
  {| pos_marker := 7; raw := [26085; 26412; 8232]%N; is_qualified := false |}.

(** The identifier of the two CJK characters alone. *)
Definition ref_nihon :=
  {| pos_marker := 7; raw := [26085; 26412]%N; is_qualified := false |}.

(** A table for the examples below.  From 128 on it takes as not printable
    the C1 controls, the no-break space, the soft hyphen, the separators
    U+2028 and U+2029, the surrogates and the tag characters from U+E0000
    to U+E007F, and every other code point as printable. *)
Definition unicode_example : UnicodeData :=
  λ c, negb ((c <=? 160) || (c =? 173) || (c =? 8232) || (c =? 8233)
             || ((55296 <=? c) && (c <=? 57343))
             || ((917504 <=? c) && (c <=? 917631)))%N.

(** ** Properties, for every table of printable code points *)

Section Properties.

Context `{!UnicodeData}.

(** ** The loop as a filter *)

Section Loop.

Context (table_aliases : list AliasInfo)
        (col_aliases : list ColumnAliasInfo)
        (using_cols : list str)
        (dialect_name : option str).

Local Abbreviation step :=
  (lint_reference (ref_str <$> table_aliases) col_aliases using_cols dialect_name).
Local Abbreviation failing := (fails table_aliases col_aliases using_cols dialect_name).

Lemma lint_reference_fails buff r :
  failing r → step buff r = buff ++ [violation_of r].
Proof. unfold fails, lint_reference. by intros ->. Qed.

Lemma lint_reference_passes buff r :
  ¬ failing r → step buff r = buff.
Proof.
  unfold fails, lint_reference. intros Hq.
  by destruct (_is_qualified_reference _ _ _ _ _).
Qed.

(** The buffer after the loop: what was there, then one record per
    failing reference, in the order of the list. *)
Lemma violation_buff_filter references buff :
  foldl step buff references
  = buff ++ (violation_of <$> filter failing references).
Proof.
  revert buff. induction references as [|r rs IH]; intros buff; simpl.
  - by rewrite app_nil_r.
  - rewrite IH, filter_cons. destruct (decide (failing r)) as [Hf|Hf].
    + rewrite lint_reference_fails by done.
      by rewrite <-app_assoc.
    + by rewrite lint_reference_passes.
Qed.

Lemma scan_unfold standalone_aliases references parent_select :
  _lint_references_and_aliases table_aliases standalone_aliases references
    col_aliases using_cols dialect_name parent_select
  = if bool_decide (length table_aliases ≤ 1) then None
    else match violation_of <$> filter failing references with
         | [] => None
         | v :: vs => Some (v :: vs)
         end.
Proof.
  unfold _lint_references_and_aliases. case_bool_decide; [done|].
  rewrite violation_buff_filter. simpl. by destruct (fmap violation_of _).
Qed.

Lemma violations_scan standalone_aliases references parent_select :
  violations (_lint_references_and_aliases table_aliases standalone_aliases
                references col_aliases using_cols dialect_name parent_select)
  = if bool_decide (length table_aliases ≤ 1) then []
    else violation_of <$> filter failing references.
Proof.
  rewrite scan_unfold. case_bool_decide; [done|].
  by destruct (fmap violation_of _).
Qed.

Lemma elem_of_violations standalone_aliases references parent_select v :
  v ∈ violations (_lint_references_and_aliases table_aliases standalone_aliases
                    references col_aliases using_cols dialect_name parent_select)
  ↔ 1 < length table_aliases ∧
    ∃ r, v = violation_of r ∧ r ∈ references ∧ failing r.
Proof.
  rewrite violations_scan. case_bool_decide as Hlen.
  - split; [by intros ?%not_elem_of_nil | intros [? _]; lia].
  - rewrite list_elem_of_fmap. setoid_rewrite list_elem_of_filter.
    split; [intros (r & -> & ? & ?) | intros (_ & r & -> & ? & ?)].
    + split; [lia | eauto].
    + eauto.
Qed.

End Loop.

(** The two qualification statuses are different texts. *)
Lemma qualification_cases r :
  (qualification r = py "qualified" ∧ qualification r ≠ py "unqualified")
  ∨ (qualification r = py "unqualified" ∧ qualification r ≠ py "qualified").
Proof.
  unfold qualification. destruct (is_qualified r); [left | right];
    (split; [reflexivity | by vm_compute]).
Qed.

(** The classifier, read as a proposition. *)
Lemma is_qualified_reference_true r tan can uc dn :
_is_qualified_reference r tan can uc dn = true ↔
  qualification r = py "qualified" ∨ raw r ∈ can ∨ raw r ∈ uc
  ∨ (dn = Some (py "redshift") ∧ raw r ∈ tan).
Proof.
unfold _is_qualified_reference.
rewrite !orb_true_iff, andb_true_iff, negb_true_iff, bool_decide_eq_false.
rewrite !bool_decide_eq_true.
assert (qualification r ≠ py "unqualified" ↔ qualification r = py "qualified")
  as ->; [|tauto].
unfold qualification. by destruct (is_qualified r).
Qed.

Lemma fails_iff ta ca uc dn r :
fails ta ca uc dn r ↔
  ¬ (qualification r = py "qualified" ∨ raw r ∈ col_alias_names r ca
     ∨ raw r ∈ uc ∨ (dn = Some (py "redshift") ∧ raw r ∈ ref_str <$> ta)).
Proof.
unfold fails. rewrite <-is_qualified_reference_true.
by destruct (_is_qualified_reference _ _ _ _ _).
Qed.

Lemma elem_of_col_alias_names r col_aliases name :
name ∈ col_alias_names r col_aliases ↔
  ∃ c, c ∈ col_aliases ∧ alias_identifier_name c = name
       ∧ r ∉ column_reference_segments c.
Proof.
induction col_aliases as [|c cs IH]; simpl.
- split; [by intros ?%not_elem_of_nil | by intros (? & ?%not_elem_of_nil & _)].
- case_bool_decide as Hin; rewrite ?elem_of_cons, IH.
  + split.
    * intros [->|(c' & ? & ? & ?)]; [exists c | exists c'];
        rewrite elem_of_cons; auto.
    * intros (c' & [->|?]%elem_of_cons & <- & ?); eauto.
  + split.
    * intros (c' & ? & ? & ?). exists c'. rewrite elem_of_cons. auto.
    * intros (c' & [->|?]%elem_of_cons & <- & ?); [done | eauto].
Qed.

(** ** The classifier *)

(** C1: the classifier answers true exactly when one of four conditions
    holds: the qualification status is "qualified", the raw text is among
    the column alias names it is given, the raw text is among the USING
    columns, or the dialect is "redshift" and the raw text is among the
    table alias names.  When none holds it answers false, and the scanner,
    past its gate, reports the reference. *)
Theorem is_qualified_reference_four_conditions
    (reference : BaseSegment) (table_alias_names can using_cols : list str)
    (dialect_name : option str) :
  let four :=
    qualification reference = py "qualified"
    ∨ raw reference ∈ can
    ∨ raw reference ∈ using_cols
    ∨ (dialect_name = Some (py "redshift") ∧ raw reference ∈ table_alias_names) in
  (_is_qualified_reference reference table_alias_names can using_cols
     dialect_name = true ↔ four)
  ∧ (¬ four →
     _is_qualified_reference reference table_alias_names can using_cols
       dialect_name = false
     ∧ ∀ table_aliases standalone_aliases references col_aliases parent_select,
         table_alias_names = ref_str <$> table_aliases →
         can = col_alias_names reference col_aliases →
         1 < length table_aliases →
         reference ∈ references →
         violation_of reference ∈
           violations (_lint_references_and_aliases table_aliases
                         standalone_aliases references col_aliases using_cols
                         dialect_name parent_select)).
Proof.
  intros four. split; [apply is_qualified_reference_true|].
  intros Hnone. split.
  - destruct (_is_qualified_reference _ _ _ _ _) eqn:Hq; [|done].
    by apply is_qualified_reference_true in Hq.
  - intros ta sa refs ca ps -> -> Hlen Hin.
    apply elem_of_violations. split; [done|].
    exists reference. split_and!; [done..|]. by apply fails_iff.
Qed.

(** ** The column alias names of a reference *)

(** C2: for each reference [r] it scans, the scanner calls the classifier
    with the identifiers of the column aliases whose own reference list
    does not hold [r], in the order of the aliases, and with no other name.
    An alias that holds another reference with the raw text of [r], but not
    [r] itself, is kept, and when its name is that raw text no violation is
    produced for [r]. *)
Theorem col_alias_names_excludes_own_alias_only
    (table_aliases : list AliasInfo) (standalone_aliases : list str)
    (references : list BaseSegment) (col_aliases : list ColumnAliasInfo)
    (using_cols : list str) (dialect_name : option str)
    (parent_select : option BaseSegment) :
  let names_passed (r : BaseSegment) : list str :=
    alias_identifier_name <$>
      filter (λ c, r ∉ column_reference_segments c) col_aliases in
  let table_alias_names := ref_str <$> table_aliases in
  let result :=
    _lint_references_and_aliases table_aliases standalone_aliases references
      col_aliases using_cols dialect_name parent_select in
  (∀ r, col_alias_names r col_aliases = names_passed r)
  ∧ (∀ violation_buff r,
       lint_reference table_alias_names col_aliases using_cols dialect_name
         violation_buff r
       = if _is_qualified_reference r table_alias_names (names_passed r)
              using_cols dialect_name
         then violation_buff
         else violation_buff ++ [violation_of r])
  ∧ (1 < length table_aliases →
     violations result
     = violation_of <$>
         filter (λ r, _is_qualified_reference r table_alias_names
                        (names_passed r) using_cols dialect_name = false)
           references)
  ∧ (∀ r c r',
       c ∈ col_aliases →
       r' ∈ column_reference_segments c →
       raw r' = raw r →
       r ∉ column_reference_segments c →
       r' ≠ r
       ∧ alias_identifier_name c ∈ names_passed r
       ∧ (alias_identifier_name c = raw r →
          ∀ v, v ∈ violations result → anchor v ≠ r)).
Proof.
  intros names_passed table_alias_names result.
  assert (∀ r, col_alias_names r col_aliases = names_passed r) as Hnames.
  { intros r. unfold names_passed.
    induction col_aliases as [|c cs IH]; [done|]. simpl.
    rewrite filter_cons, IH.
    case_bool_decide; destruct (decide _); simpl; done || tauto. }
  split_and!.
  - done.
  - intros buff r. unfold lint_reference. rewrite Hnames.
    by destruct (_is_qualified_reference _ _ _ _ _).
  - intros Hlen. unfold result. rewrite violations_scan.
    rewrite bool_decide_eq_false_2 by lia. f_equal.
    apply list_filter_iff. intros r. unfold fails. by rewrite Hnames.
  - intros r c r' Hc Hr' Hraw Hr.
    assert (alias_identifier_name c ∈ names_passed r) as Hname.
    { rewrite <-Hnames. apply elem_of_col_alias_names. eauto. }
    split_and!; [by intros -> | done |].
    intros Heq v (_ & r0 & -> & _ & Hfail)%elem_of_violations. simpl.
    intros ->. apply fails_iff in Hfail. apply Hfail.
    right; left. rewrite Hnames, <-Heq. done.
Qed.

(** ** The scanner *)

(** C3: with at most one table source the scanner returns [None], whatever
    the references, column aliases, USING columns and dialect are. *)
Theorem single_source_no_violations
    (table_aliases : list AliasInfo) (standalone_aliases : list str)
    (references : list BaseSegment) (col_aliases : list ColumnAliasInfo)
    (using_cols : list str) (dialect_name : option str)
    (parent_select : option BaseSegment) :
  length table_aliases ≤ 1 →
  _lint_references_and_aliases table_aliases standalone_aliases references
    col_aliases using_cols dialect_name parent_select = None.
Proof.
  intros Hlen. unfold _lint_references_and_aliases.
  by rewrite bool_decide_eq_true_2.
Qed.

(** C4: a scanned reference that is unqualified, whose raw text is the
    [ref_str] of some table alias and is neither one of its column alias
    names nor a USING column, in a statement with more than one table
    source: under the dialect "redshift" no violation is anchored at it;
    under every other dialect name, [None] included, one is. *)
Theorem redshift_table_alias_exception
    (table_aliases : list AliasInfo) (standalone_aliases : list str)
    (references : list BaseSegment) (col_aliases : list ColumnAliasInfo)
    (using_cols : list str) (parent_select : option BaseSegment)
    (r : BaseSegment) :
  1 < length table_aliases →
  r ∈ references →
  qualification r = py "unqualified" →
  (∃ t, t ∈ table_aliases ∧ ref_str t = raw r) →
  raw r ∉ col_alias_names r col_aliases →
  raw r ∉ using_cols →
  (∀ v, v ∈ violations (_lint_references_and_aliases table_aliases
                          standalone_aliases references col_aliases using_cols
                          (Some (py "redshift")) parent_select) →
        anchor v ≠ r)
  ∧ (∀ dialect_name, dialect_name ≠ Some (py "redshift") →
       ∃ v, v ∈ violations (_lint_references_and_aliases table_aliases
                              standalone_aliases references col_aliases
                              using_cols dialect_name parent_select)
            ∧ anchor v = r).
Proof.
  intros Hlen Hin Hunq (t & Ht & Href) Hcol Husing. split.
  - intros v (_ & r' & -> & _ & Hfail)%elem_of_violations. simpl. intros ->.
    apply fails_iff in Hfail. apply Hfail. do 3 right. split; [done|].
    apply list_elem_of_fmap. eauto.
  - intros dn Hdn. exists (violation_of r). split; [|done].
    apply elem_of_violations. split; [done|]. exists r. split_and!; [done..|].
    apply fails_iff. intros [Hq|[?|[?|[? _]]]]; [|done..].
    rewrite Hunq in Hq. discriminate Hq.
Qed.

(** C5: with two table sources and [USING (id)], an unqualified reference
    whose raw text is [id] gets no violation; an unqualified reference with
    another raw text, which is not one of its column alias names and not a
    table alias name under "redshift", gets one. *)
Theorem using_column_exception
    (t1 t2 : AliasInfo) (standalone_aliases : list str)
    (references : list BaseSegment) (col_aliases : list ColumnAliasInfo)
    (id : str) (dialect_name : option str)
    (parent_select : option BaseSegment) :
  let result :=
    _lint_references_and_aliases [t1; t2] standalone_aliases references
      col_aliases [id] dialect_name parent_select in
  (∀ r, r ∈ references → qualification r = py "unqualified" → raw r = id →
        ∀ v, v ∈ violations result → anchor v ≠ r)
  ∧ (∀ r, r ∈ references → qualification r = py "unqualified" → raw r ≠ id →
          raw r ∉ col_alias_names r col_aliases →
          ¬ (dialect_name = Some (py "redshift")
             ∧ raw r ∈ [ref_str t1; ref_str t2]) →
          ∃ v, v ∈ violations result ∧ anchor v = r).
Proof.
  intros result. split.
  - intros r _ _ Hid v (_ & r' & -> & _ & Hfail)%elem_of_violations.
    simpl. intros ->. apply fails_iff in Hfail. apply Hfail.
    right; right; left. rewrite Hid. apply list_elem_of_singleton. done.
  - intros r Hin Hunq Hid Hcol Htab. exists (violation_of r). split; [|done].
    apply elem_of_violations. split; [simpl; lia|].
    exists r. split_and!; [done..|].
    apply fails_iff. intros [Hq|[?|[Hu|?]]]; [|done| |done].
    + rewrite Hunq in Hq. discriminate Hq.
    + by apply list_elem_of_singleton in Hu.
Qed.

(** C7: the anchors of the returned violations are the failing references
    in the order of the supplied list, one violation for each; they form a
    sublist of the references. *)
Theorem violations_in_reference_order
    (table_aliases : list AliasInfo) (standalone_aliases : list str)
    (references : list BaseSegment) (col_aliases : list ColumnAliasInfo)
    (using_cols : list str) (dialect_name : option str)
    (parent_select : option BaseSegment) :
  let result :=
    _lint_references_and_aliases table_aliases standalone_aliases references
      col_aliases using_cols dialect_name parent_select in
  anchor <$> violations result
  = (if bool_decide (length table_aliases ≤ 1) then []
     else filter (fails table_aliases col_aliases using_cols dialect_name)
            references)
  ∧ anchor <$> violations result `sublist_of` references.
Proof.
  intros result.
  assert (anchor <$> violations result
          = if bool_decide (length table_aliases ≤ 1) then []
            else filter (fails table_aliases col_aliases using_cols dialect_name)
                   references) as Heq.
  { unfold result. rewrite violations_scan. case_bool_decide; [done|].
    rewrite <-list_fmap_compose. apply list_fmap_id. }
  split; [done|]. rewrite Heq. case_bool_decide.
  - apply sublist_nil_l.
  - apply sublist_filter.
Qed.

(** C9: the result does not depend on [standalone_aliases] or on
    [parent_select]. *)
Theorem standalone_aliases_and_parent_select_unused
    (table_aliases : list AliasInfo)
    (standalone_aliases standalone_aliases' : list str)
    (references : list BaseSegment) (col_aliases : list ColumnAliasInfo)
    (using_cols : list str) (dialect_name : option str)
    (parent_select parent_select' : option BaseSegment) :
  _lint_references_and_aliases table_aliases standalone_aliases references
    col_aliases using_cols dialect_name parent_select
  = _lint_references_and_aliases table_aliases standalone_aliases' references
      col_aliases using_cols dialect_name parent_select'.
Proof. reflexivity. Qed.

(** ** Monotonicity in the exception inputs *)

Lemma filter_sublist_impl {A} (P Q : A → Prop)
    `{!∀ x, Decision (P x)} `{!∀ x, Decision (Q x)} (l : list A) :
  (∀ x, x ∈ l → P x → Q x) → filter P l `sublist_of` filter Q l.
Proof.
  induction l as [|x l IH]; intros HPQ; [done|].
  rewrite !filter_cons.
  assert (filter P l `sublist_of` filter Q l) as Hrest.
  { apply IH. intros y Hy. apply HPQ. by apply list_elem_of_further. }
  destruct (decide (P x)) as [HP|HP], (decide (Q x)) as [HQ|HQ].
  - by apply sublist_skip.
  - destruct HQ. apply HPQ; [apply list_elem_of_here | done].
  - by apply sublist_cons.
  - done.
Qed.

Lemma col_alias_names_mono r (col_aliases col_aliases' : list ColumnAliasInfo) :
  col_aliases ⊆ col_aliases' →
  col_alias_names r col_aliases ⊆ col_alias_names r col_aliases'.
Proof.
  intros Hsub name (c & Hc & ? & ?)%elem_of_col_alias_names.
  apply elem_of_col_alias_names. exists c. split_and!; [by apply Hsub | done..].
Qed.

Lemma fails_anti_mono ta (ca ca' : list ColumnAliasInfo) (uc uc' : list str) dn r :
  ca ⊆ ca' → uc ⊆ uc' → fails ta ca' uc' dn r → fails ta ca uc dn r.
Proof.
  intros Hca Huc. rewrite !fails_iff. intros Hnone [?|[Hc|[Hu|?]]]; apply Hnone.
  - by left.
  - right; left. by apply (col_alias_names_mono r ca ca').
  - right; right; left. by apply Huc.
  - by do 3 right.
Qed.

(** C10: enlarging the USING columns or the column aliases never creates a
    violation: the violations of the enlarged statement are a sublist, in
    the same order, of the violations of the original one. *)
Theorem more_exceptions_fewer_violations
    (table_aliases : list AliasInfo) (standalone_aliases : list str)
    (references : list BaseSegment)
    (col_aliases col_aliases' : list ColumnAliasInfo)
    (using_cols using_cols' : list str) (dialect_name : option str)
    (parent_select : option BaseSegment) :
  using_cols ⊆ using_cols' →
  col_aliases ⊆ col_aliases' →
  violations (_lint_references_and_aliases table_aliases standalone_aliases
                references col_aliases' using_cols' dialect_name parent_select)
  `sublist_of`
  violations (_lint_references_and_aliases table_aliases standalone_aliases
                references col_aliases using_cols dialect_name parent_select).
Proof.
  intros Huc Hca. rewrite !violations_scan. case_bool_decide; [done|].
  apply fmap_sublist, filter_sublist_impl.
  intros r _. by apply fails_anti_mono.
Qed.

(** ** The returned value *)

(** C8 (amended): past the gate the scanner returns the buffer when it is
    not empty and [None], never an empty list, when no reference failed.
    An empty reference list gives [None].  An empty column alias list gives
    every reference an empty list of names, and then the result is [None]
    exactly when every reference is qualified, a USING column, or a table
    alias name under "redshift". *)
Theorem result_none_iff_nothing_flagged
    (table_aliases : list AliasInfo) (standalone_aliases : list str)
    (references : list BaseSegment) (col_aliases : list ColumnAliasInfo)
    (using_cols : list str) (dialect_name : option str)
    (parent_select : option BaseSegment) :
  1 < length table_aliases →
  let violation_buff :=
    foldl (lint_reference (ref_str <$> table_aliases) col_aliases using_cols
             dialect_name) [] references in
  let result :=
    _lint_references_and_aliases table_aliases standalone_aliases references
      col_aliases using_cols dialect_name parent_select in
  (violation_buff ≠ [] → result = Some violation_buff)
  ∧ (violation_buff = [] → result = None)
  ∧ result ≠ Some []
  ∧ (result = None ↔
     ∀ r, r ∈ references →
          ¬ fails table_aliases col_aliases using_cols dialect_name r)
  ∧ (references = [] → result = None)
  ∧ (col_aliases = [] →
     (∀ r, col_alias_names r col_aliases = [])
     ∧ (result = None ↔
        ∀ r, r ∈ references →
             qualification r = py "qualified" ∨ raw r ∈ using_cols
             ∨ (dialect_name = Some (py "redshift")
                ∧ raw r ∈ ref_str <$> table_aliases))).
Proof.
  intros Hlen violation_buff result.
  assert (result = match violation_buff with
                   | [] => None
                   | _ :: _ => Some violation_buff
                   end) as Hres.
  { unfold result, _lint_references_and_aliases.
    rewrite bool_decide_eq_false_2 by lia. done. }
  assert (result = None ↔
          ∀ r, r ∈ references →
               ¬ fails table_aliases col_aliases using_cols dialect_name r)
    as Hnone.
  { rewrite Hres. unfold violation_buff. rewrite violation_buff_filter. simpl.
    split.
    - intros Hn r Hr Hf.
      assert (r ∈ filter (fails table_aliases col_aliases using_cols dialect_name)
                    references) as Hin by by apply list_elem_of_filter.
      destruct (filter _ references); [by apply not_elem_of_nil in Hin | done].
    - intros Hall.
      destruct (filter _ references) as [|r rs] eqn:Hfl; [done|].
      assert (r ∈ r :: rs) as Hin by apply list_elem_of_here.
      rewrite <-Hfl in Hin. apply list_elem_of_filter in Hin as [Hf Hr].
      by destruct (Hall r Hr). }
  split_and!.
  - intros Hne. rewrite Hres. by destruct violation_buff.
  - intros Hnil. rewrite Hres. by rewrite Hnil.
  - rewrite Hres. by destruct violation_buff.
  - done.
  - intros ->. by rewrite Hres.
  - intros ->. split; [done|]. rewrite Hnone.
    split; intros Hall r Hr; specialize (Hall r Hr).
    + destruct (decide (fails table_aliases [] using_cols dialect_name r))
        as [Hf|Hf]; [done|].
      unfold fails in Hf. apply not_false_is_true in Hf.
      apply is_qualified_reference_true in Hf as [?|[Hc|[?|?]]]; auto.
      by apply not_elem_of_nil in Hc.
    + rewrite fails_iff. intros Hn. apply Hn. tauto.
Qed.

(** ** The description of a violation *)

Section Repr.

Import PyStr.

(** Between single quotes a character is either copied, or written as a
    backslash and at least one more character. *)
Lemma repr_char_squote c :
  (plain_char c = true ∧ repr_char squote c = [c])
  ∨ (plain_char c = false
     ∧ ∃ d rest, repr_char squote c = backslash :: d :: rest).
Proof.
  unfold plain_char, repr_char, isprintable, squote, backslash.
  destruct (N.eqb_spec c 39) as [->|?];
    [right; split; [by destruct (unicode_isprintable 39) | eauto]|].
  destruct (N.eqb_spec c 92) as [->|?]; [right; split; [done | eauto]|].
  simpl.
  destruct (N.eqb_spec c 9) as [->|?];
    [right; split; [done | eexists _, _; reflexivity]|].
  destruct (N.eqb_spec c 10) as [->|?];
    [right; split; [done | eexists _, _; reflexivity]|].
  destruct (N.eqb_spec c 13) as [->|?];
    [right; split; [done | eexists _, _; reflexivity]|].
  destruct (N.ltb_spec c 32), (N.eqb_spec c 127), (N.ltb_spec c 127),
    (N.ltb_spec c 128), (N.leb_spec 32 c); simpl; try lia;
    try (right; split; [done | eexists _, _; reflexivity]);
    try (left; split; [by rewrite ?andb_true_r | done]).
  destruct (unicode_isprintable c); [left; by rewrite ?andb_true_r|].
  right. split; [done|].
  destruct (c <=? 255)%N; [|destruct (c <=? 65535)%N];
    eexists _, _; reflexivity.
Qed.

Lemma length_repr_body quote s : length s ≤ length (repr_body quote s).
Proof.
  induction s as [|c s IH]; simpl; [done|]. rewrite length_app.
  assert (1 ≤ length (repr_char quote c)); [|lia].
  unfold repr_char. repeat case_match; simpl; rewrite ?length_app; simpl; lia.
Qed.

Lemma plain_no_squote s : plain s = true → contains squote s = false.
Proof.
  unfold plain, contains. intros Hp. apply bool_decide_eq_false. intros Hin.
  rewrite forallb_forall in Hp. apply list_elem_of_In, Hp in Hin.
  unfold plain_char in Hin. rewrite N.eqb_refl in Hin.
  by rewrite andb_false_r in Hin.
Qed.

Lemma repr_body_plain s : plain s = true → repr_body squote s = s.
Proof.
  induction s as [|c s IH]; simpl; [done|].
  intros [Hc Hs]%andb_true_iff.
  destruct (repr_char_squote c) as [[_ ->]|[Hn _]]; [|congruence].
  simpl. by rewrite IH.
Qed.

Lemma repr_body_unchanged_plain s t :
  repr_body squote s ++ t = s ++ t → plain s = true.
Proof.
  induction s as [|c s IH]; simpl; [done|].
  destruct (repr_char_squote c) as [[-> ->]|[_ (d & rest & ->)]].
  - simpl. intros [= Heq]. by apply IH.
  - simpl. intros [= _ Heq].
    apply (f_equal length) in Heq. simpl in Heq. rewrite !length_app in Heq.
    pose proof (length_repr_body squote s). lia.
Qed.

(** [repr] gives the text between single quotes exactly for the plain
    strings. *)
Lemma repr_single_quoted s t :
  repr s ++ t = squote :: s ++ squote :: t ↔ plain s = true.
Proof.
  unfold repr. split.
  - destruct (contains squote s && negb (contains dquote s)); simpl;
      intros [= Heq].
    rewrite <-app_assoc in Heq. by apply repr_body_unchanged_plain in Heq.
  - intros Hp. rewrite (plain_no_squote s Hp). simpl.
    rewrite <-app_assoc. by rewrite repr_body_plain.
Qed.

Lemma violation_description_single_quoted r :
  violation_description r = single_quoted_description (raw r)
  ↔ plain (raw r) = true.
Proof.
  rewrite <-(repr_single_quoted (raw r)
               (py " found in select with more than one referenced table/view.")).
  change (violation_description r)
    with (py "Unqualified reference " ++
          (repr (raw r) ++
           py " found in select with more than one referenced table/view.")).
  change (single_quoted_description (raw r))
    with (py "Unqualified reference " ++
          (squote :: raw r ++ squote ::
            py " found in select with more than one referenced table/view.")).
  split.
  - by intros Heq%(inj (app (py "Unqualified reference "))).
  - by intros ->.
Qed.

End Repr.

(** C6 (amended): every violation is anchored at a failing reference [r] of
    the list and its description is
    [Unqualified reference <repr of r.raw> found in select with more than
    one referenced table/view.], with Python's [repr] of the raw text.  That
    is the raw text between single quotes exactly when the raw text is made
    of printable characters other than the single quote and the backslash. *)
Theorem violation_description_is_repr
    (table_aliases : list AliasInfo) (standalone_aliases : list str)
    (references : list BaseSegment) (col_aliases : list ColumnAliasInfo)
    (using_cols : list str) (dialect_name : option str)
    (parent_select : option BaseSegment) (v : LintResult) :
  v ∈ violations (_lint_references_and_aliases table_aliases standalone_aliases
                    references col_aliases using_cols dialect_name parent_select) →
  anchor v ∈ references
  ∧ fails table_aliases col_aliases using_cols dialect_name (anchor v)
  ∧ description v
    = py "Unqualified reference " ++ PyStr.repr (raw (anchor v))
      ++ (py " found in select with more than one referenced table/view.")
  ∧ (description v = single_quoted_description (raw (anchor v))
     ↔ PyStr.plain (raw (anchor v)) = true).
Proof.
  intros (_ & r & -> & Hin & Hfail)%elem_of_violations. simpl.
  split_and!; [done | done | reflexivity |].
  apply violation_description_single_quoted.
Qed.

(** ** Further properties of the scanner *)

Lemma anchors_scan ta sa refs ca uc dn ps :
  anchor <$> violations (_lint_references_and_aliases ta sa refs ca uc dn ps)
  = if bool_decide (length ta ≤ 1) then [] else filter (fails ta ca uc dn) refs.
Proof.
  rewrite violations_scan. case_bool_decide; [done|].
  rewrite <-list_fmap_compose. apply list_fmap_id.
Qed.

Lemma unqualified_not_qualified r :
  qualification r = py "unqualified" ↔ ¬ qualification r = py "qualified".
Proof. unfold qualification. by destruct (is_qualified r). Qed.

Lemma not_elem_of_col_alias_names r col_aliases :
  raw r ∉ col_alias_names r col_aliases ↔
    ∀ c, c ∈ col_aliases → alias_identifier_name c = raw r →
         r ∈ column_reference_segments c.
Proof.
  rewrite elem_of_col_alias_names. split.
  - intros Hno c Hc Hname.
    destruct (decide (r ∈ column_reference_segments c)) as [|Hout]; [done|].
    destruct Hno. eauto.
  - intros Hall (c & Hc & Hname & Hout). by apply Hout, Hall.
Qed.

(** X1: a reference with an explicit qualifier never anchors a violation,
    whatever the other inputs are. *)
Theorem qualified_reference_never_flagged
    (table_aliases : list AliasInfo) (standalone_aliases : list str)
    (references : list BaseSegment) (col_aliases : list ColumnAliasInfo)
    (using_cols : list str) (dialect_name : option str)
    (parent_select : option BaseSegment) (r : BaseSegment) :
  qualification r = py "qualified" →
  ∀ v, v ∈ violations (_lint_references_and_aliases table_aliases
                         standalone_aliases references col_aliases using_cols
                         dialect_name parent_select) →
       anchor v ≠ r.
Proof.
  intros Hq v (_ & r' & -> & _ & Hfail)%elem_of_violations. simpl. intros ->.
  apply fails_iff in Hfail. apply Hfail. by left.
Qed.

(** X2: a reference anchors a violation exactly when the statement has more
    than one table source, the reference is among the scanned ones and is
    unqualified, every column alias with its raw text as name holds the
    reference in its own expression, its raw text is no USING column, and it
    is not a table alias name under "redshift". *)
Theorem reference_reported_iff
    (table_aliases : list AliasInfo) (standalone_aliases : list str)
    (references : list BaseSegment) (col_aliases : list ColumnAliasInfo)
    (using_cols : list str) (dialect_name : option str)
    (parent_select : option BaseSegment) (r : BaseSegment) :
  (∃ v, v ∈ violations (_lint_references_and_aliases table_aliases
                          standalone_aliases references col_aliases using_cols
                          dialect_name parent_select)
        ∧ anchor v = r)
  ↔ 1 < length table_aliases
    ∧ r ∈ references
    ∧ qualification r = py "unqualified"
    ∧ (∀ c, c ∈ col_aliases → alias_identifier_name c = raw r →
            r ∈ column_reference_segments c)
    ∧ (raw r ∉ using_cols)
    ∧ ¬ (dialect_name = Some (py "redshift")
         ∧ (∃ t, t ∈ table_aliases ∧ ref_str t = raw r)).
Proof.
  rewrite <-not_elem_of_col_alias_names, unqualified_not_qualified.
  assert ((∃ t, t ∈ table_aliases ∧ ref_str t = raw r)
          ↔ raw r ∈ ref_str <$> table_aliases) as ->.
  { rewrite list_elem_of_fmap.
    split; [intros (t & Ht & <-) | intros (t & -> & Ht)]; eauto. }
  split.
  - intros (v & (Hlen & r' & -> & Hin & Hfail)%elem_of_violations & Hanchor).
    simpl in Hanchor. subst r'. apply fails_iff in Hfail. tauto.
  - intros (Hlen & Hin & Hq & Hc & Hu & Ht). exists (violation_of r).
    split; [|done]. apply elem_of_violations. split; [done|].
    exists r. split_and!; [done..|]. apply fails_iff. tauto.
Qed.

(** X3: scanning a concatenation of reference lists gives the violations of
    the first list followed by those of the second; no reference changes the
    verdict on another. *)
Theorem violations_references_app
    (table_aliases : list AliasInfo) (standalone_aliases : list str)
    (references1 references2 : list BaseSegment)
    (col_aliases : list ColumnAliasInfo)
    (using_cols : list str) (dialect_name : option str)
    (parent_select : option BaseSegment) :
  violations (_lint_references_and_aliases table_aliases standalone_aliases
                (references1 ++ references2) col_aliases using_cols
                dialect_name parent_select)
  = violations (_lint_references_and_aliases table_aliases standalone_aliases
                  references1 col_aliases using_cols dialect_name parent_select)
    ++ violations (_lint_references_and_aliases table_aliases standalone_aliases
                     references2 col_aliases using_cols dialect_name
                     parent_select).
Proof.
  rewrite !violations_scan. case_bool_decide; [done|].
  by rewrite filter_app, fmap_app.
Qed.

(** X4: reordering the references reorders the violations and changes
    nothing else. *)
Theorem violations_references_permutation
    (table_aliases : list AliasInfo) (standalone_aliases : list str)
    (references references' : list BaseSegment)
    (col_aliases : list ColumnAliasInfo)
    (using_cols : list str) (dialect_name : option str)
    (parent_select : option BaseSegment) :
  references ≡ₚ references' →
  violations (_lint_references_and_aliases table_aliases standalone_aliases
                references col_aliases using_cols dialect_name parent_select)
  ≡ₚ violations (_lint_references_and_aliases table_aliases standalone_aliases
                   references' col_aliases using_cols dialect_name
                   parent_select).
Proof.
  intros Hperm. rewrite !violations_scan. case_bool_decide; [done|].
  by rewrite Hperm.
Qed.

(** X5: the USING columns and the column aliases count as sets: two calls
    whose lists hold the same elements, in any order and with any
    repetition, return the same result. *)
Theorem exception_lists_are_sets
    (table_aliases : list AliasInfo) (standalone_aliases : list str)
    (references : list BaseSegment)
    (col_aliases col_aliases' : list ColumnAliasInfo)
    (using_cols using_cols' : list str) (dialect_name : option str)
    (parent_select : option BaseSegment) :
  (∀ name, name ∈ using_cols ↔ name ∈ using_cols') →
  (∀ c, c ∈ col_aliases ↔ c ∈ col_aliases') →
  _lint_references_and_aliases table_aliases standalone_aliases references
    col_aliases using_cols dialect_name parent_select
  = _lint_references_and_aliases table_aliases standalone_aliases references
      col_aliases' using_cols' dialect_name parent_select.
Proof.
  intros Huc Hca. rewrite !scan_unfold. case_bool_decide; [done|].
  rewrite (list_filter_iff (fails table_aliases col_aliases using_cols dialect_name)
             (fails table_aliases col_aliases' using_cols' dialect_name)); [done|].
  intros r. split; apply fails_anti_mono; intros x; by (apply Huc || apply Hca).
Qed.

(** X6: outside "redshift" neither the names of the table sources nor the
    dialect name matter: two statements with more than one table source
    each, under two dialects other than "redshift", get the same result. *)
Theorem table_alias_names_matter_only_for_redshift
    (table_aliases table_aliases' : list AliasInfo)
    (standalone_aliases : list str)
    (references : list BaseSegment) (col_aliases : list ColumnAliasInfo)
    (using_cols : list str) (dialect_name dialect_name' : option str)
    (parent_select : option BaseSegment) :
  1 < length table_aliases →
  1 < length table_aliases' →
  dialect_name ≠ Some (py "redshift") →
  dialect_name' ≠ Some (py "redshift") →
  _lint_references_and_aliases table_aliases standalone_aliases references
    col_aliases using_cols dialect_name parent_select
  = _lint_references_and_aliases table_aliases' standalone_aliases references
      col_aliases using_cols dialect_name' parent_select.
Proof.
  intros Hlen Hlen' Hdn Hdn'. rewrite !scan_unfold.
  rewrite !bool_decide_eq_false_2 by lia.
  rewrite (list_filter_iff (fails table_aliases col_aliases using_cols dialect_name)
             (fails table_aliases' col_aliases using_cols dialect_name')); [done|].
  intros r. rewrite !fails_iff. tauto.
Qed.

(** X7: the dialect "redshift" only removes violations: what is reported
    under it is a sublist, in the same order, of what is reported under any
    dialect name. *)
Theorem redshift_only_removes_violations
    (table_aliases : list AliasInfo) (standalone_aliases : list str)
    (references : list BaseSegment) (col_aliases : list ColumnAliasInfo)
    (using_cols : list str) (dialect_name : option str)
    (parent_select : option BaseSegment) :
  violations (_lint_references_and_aliases table_aliases standalone_aliases
                references col_aliases using_cols (Some (py "redshift"))
                parent_select)
  `sublist_of`
  violations (_lint_references_and_aliases table_aliases standalone_aliases
                references col_aliases using_cols dialect_name parent_select).
Proof.
  rewrite !violations_scan. case_bool_decide; [done|].
  apply fmap_sublist, filter_sublist_impl.
  intros r _. rewrite !fails_iff. intros Hnone Hsome. apply Hnone.
  destruct Hsome as [?|[?|[?|[_ ?]]]]; auto.
Qed.

(** X8: a statement that already has more than one table source gets no new
    violation when table sources are added to it. *)
Theorem more_table_sources_fewer_violations
    (table_aliases table_aliases' : list AliasInfo)
    (standalone_aliases : list str)
    (references : list BaseSegment) (col_aliases : list ColumnAliasInfo)
    (using_cols : list str) (dialect_name : option str)
    (parent_select : option BaseSegment) :
  1 < length table_aliases →
  table_aliases `sublist_of` table_aliases' →
  violations (_lint_references_and_aliases table_aliases' standalone_aliases
                references col_aliases using_cols dialect_name parent_select)
  `sublist_of`
  violations (_lint_references_and_aliases table_aliases standalone_aliases
                references col_aliases using_cols dialect_name parent_select).
Proof.
  intros Hlen Hsub. pose proof (sublist_length _ _ Hsub) as Hlen'.
  rewrite !violations_scan. rewrite !bool_decide_eq_false_2 by lia.
  apply fmap_sublist, filter_sublist_impl.
  intros r _. rewrite !fails_iff. intros Hnone Hsome. apply Hnone.
  destruct Hsome as [?|[?|[?|[? Hin]]]]; auto.
  do 3 right. split; [done|].
  apply list_elem_of_fmap in Hin as (t & -> & Ht).
  apply list_elem_of_fmap_2. by eapply elem_of_sublist.
Qed.

(** X9: there are at most as many violations as references, and references
    that are pairwise different are reported at most once each. *)
Theorem violations_at_most_one_per_reference
    (table_aliases : list AliasInfo) (standalone_aliases : list str)
    (references : list BaseSegment) (col_aliases : list ColumnAliasInfo)
    (using_cols : list str) (dialect_name : option str)
    (parent_select : option BaseSegment) :
  let result :=
    _lint_references_and_aliases table_aliases standalone_aliases references
      col_aliases using_cols dialect_name parent_select in
  length (violations result) ≤ length references
  ∧ (NoDup references → NoDup (anchor <$> violations result)).
Proof.
  intros result. unfold result. split.
  - rewrite <-(length_fmap anchor), anchors_scan.
    case_bool_decide; [simpl; lia | apply length_filter].
  - intros Hnd. rewrite anchors_scan.
    case_bool_decide; [apply NoDup_nil_2 | by apply NoDup_filter].
Qed.

(** ** Further properties of the description *)

Section Description.

Import PyStr.

Lemma all_printable_app s t :
  all_printable (s ++ t) = all_printable s && all_printable t.
Proof. apply forallb_app. Qed.

Lemma hexdigit_printable n : isprintable (hexdigit n) = true.
Proof.
  unfold hexdigit. generalize (N.to_nat n). intros k.
  do 16 (destruct k as [|k]; [reflexivity|]). by destruct k.
Qed.

Lemma hex_printable width n : all_printable (hex width n) = true.
Proof.
  revert n. induction width as [|w IH]; intros n; simpl; [done|].
  rewrite all_printable_app, IH. simpl. by rewrite hexdigit_printable.
Qed.

Lemma repr_char_printable quote c :
  quote = squote ∨ quote = dquote → all_printable (repr_char quote c) = true.
Proof.
  intros Hq. unfold repr_char.
  destruct ((c =? quote) || (c =? backslash))%N eqn:He.
  - assert (c = 39 ∨ c = 34 ∨ c = 92)%N as [->|[->| ->]]; [|reflexivity..].
    apply orb_true_iff in He as [He|He]; apply N.eqb_eq in He;
      destruct Hq; subst; unfold squote, dquote, backslash; auto.
  - repeat case_match; rewrite ?all_printable_app, ?hex_printable;
      try reflexivity.
    + unfold all_printable, isprintable. simpl.
      destruct (N.ltb_spec c 128), (N.leb_spec 32 c), (N.ltb_spec c 127);
        simpl; try done;
        repeat match goal with
               | H : (_ <? _)%N = _ |- _ => apply N.ltb_lt in H || apply N.ltb_ge in H
               | H : (_ || _)%N = false |- _ => apply orb_false_iff in H as [??]
               end; lia.
    + unfold all_printable, isprintable. simpl.
      destruct (N.ltb_spec c 128); [|by rewrite andb_true_r].
      repeat match goal with
             | H : (_ <? _)%N = _ |- _ => apply N.ltb_lt in H || apply N.ltb_ge in H
             | H : (_ =? _)%N = false |- _ => apply N.eqb_neq in H
             | H : (_ || _)%N = false |- _ => apply orb_false_iff in H as [??]
             end; lia.
Qed.

Lemma repr_body_printable quote s :
  quote = squote ∨ quote = dquote → all_printable (repr_body quote s) = true.
Proof.
  intros Hq. induction s as [|c s IH]; [done|]. simpl.
  by rewrite all_printable_app, repr_char_printable, IH.
Qed.

Lemma repr_printable s : all_printable (repr s) = true.
Proof.
  unfold repr.
  destruct (contains squote s && negb (contains dquote s));
    change (all_printable (?q :: ?l)) with (isprintable q && all_printable l);
    rewrite all_printable_app, repr_body_printable by auto; reflexivity.
Qed.

Lemma violation_description_printable r :
  all_printable (violation_description r) = true.
Proof.
  unfold violation_description.
  rewrite !all_printable_app, repr_printable. reflexivity.
Qed.

End Description.

(** X10: the description of a violation holds printable characters only,
    also when the raw text of the reference holds control characters: the
    message stays on one line. *)
Theorem description_is_printable
    (table_aliases : list AliasInfo) (standalone_aliases : list str)
    (references : list BaseSegment) (col_aliases : list ColumnAliasInfo)
    (using_cols : list str) (dialect_name : option str)
    (parent_select : option BaseSegment) (v : LintResult) :
  v ∈ violations (_lint_references_and_aliases table_aliases standalone_aliases
                    references col_aliases using_cols dialect_name parent_select) →
  all_printable (description v) = true.
Proof.
  intros (_ & r & -> & _)%elem_of_violations.
  apply violation_description_printable.
Qed.

Section Reading.

Import PyStr.

Lemma unhex_hexdigit v : (v < 16)%N → unhex (hexdigit v) = Some v.
Proof.
  intros Hv.
  assert (v = 0 ∨ v = 1 ∨ v = 2 ∨ v = 3 ∨ v = 4 ∨ v = 5 ∨ v = 6 ∨ v = 7
          ∨ v = 8 ∨ v = 9 ∨ v = 10 ∨ v = 11 ∨ v = 12 ∨ v = 13 ∨ v = 14
          ∨ v = 15)%N as Hcases by lia.
  repeat destruct Hcases as [->|Hcases]; try reflexivity.
  by subst.
Qed.

(** Reading the digits written by [hex] gives the number back, as far as
    the digits hold it. *)
Lemma unhex_digits_hex width more acc n rest :
  unhex_digits (width + more) acc (hex width n ++ rest)
  = unhex_digits more (acc * 16 ^ N.of_nat width + n mod 16 ^ N.of_nat width)%N
      rest.
Proof.
  revert more n rest. induction width as [|w IH]; intros more n rest.
  - simpl. f_equal. rewrite N.mod_1_r. lia.
  - simpl hex. rewrite <-app_assoc. simpl app.
    replace (S w + more) with (w + S more) by lia. rewrite IH.
    simpl unhex_digits. rewrite unhex_hexdigit by (apply N.mod_lt; lia).
    f_equal. rewrite Nat2N.inj_succ, N.pow_succ_r'.
    rewrite (N.Div0.mod_mul_r n 16). lia.
Qed.

Lemma unhex_digits_hex_all width n rest :
  (n < 16 ^ N.of_nat width)%N →
  unhex_digits width 0 (hex width n ++ rest) = Some (n, rest).
Proof.
  intros Hn. rewrite <-(Nat.add_0_r width) at 1. rewrite unhex_digits_hex.
  simpl. by rewrite N.mod_small.
Qed.

(** Reading back undoes [repr_char], whatever follows. *)
Lemma unrepr_repr_char quote c t :
  quote = squote ∨ quote = dquote →
  (c < 4294967296)%N →
  unrepr_char (repr_char quote c ++ t) = Some (c, t).
Proof.
  intros Hq Hc. unfold repr_char.
  destruct ((c =? quote) || (c =? backslash))%N eqn:He.
  - assert (c = 39 ∨ c = 34 ∨ c = 92)%N as [->|[->| ->]]; [|reflexivity..].
    apply orb_true_iff in He as [He|He]; apply N.eqb_eq in He;
      destruct Hq; subst; unfold squote, dquote, backslash; auto.
  - apply orb_false_iff in He as [_ Hb].
    assert (∀ rest, unrepr_char (c :: rest) = Some (c, rest)) as Hcopy.
    { intros rest. unfold unrepr_char. by rewrite Hb. }
    destruct (N.eqb_spec c 9) as [->|?]; [reflexivity|].
    destruct (N.eqb_spec c 10) as [->|?]; [reflexivity|].
    destruct (N.eqb_spec c 13) as [->|?]; [reflexivity|].
    destruct ((c <? 32) || (c =? 127))%N eqn:Hctl.
    { change (unhex_digits 2 0 (hex 2 c ++ t) = Some (c, t)).
      apply unhex_digits_hex_all.
      apply orb_true_iff in Hctl as [?%N.ltb_lt|?%N.eqb_eq]; simpl; lia. }
    destruct (c <? 127)%N; [apply Hcopy|].
    destruct (unicode_isprintable c); [apply Hcopy|].
    destruct (N.leb_spec c 255).
    { change (unhex_digits 2 0 (hex 2 c ++ t) = Some (c, t)).
      apply unhex_digits_hex_all. simpl. lia. }
    destruct (N.leb_spec c 65535).
    { change (unhex_digits 4 0 (hex 4 c ++ t) = Some (c, t)).
      apply unhex_digits_hex_all. simpl. lia. }
    change (unhex_digits 8 0 (hex 8 c ++ t) = Some (c, t)).
    apply unhex_digits_hex_all. simpl. lia.
Qed.

(** The closing quote is never the first character written for a
    character of the text. *)
Lemma repr_char_head quote c t :
  quote = squote ∨ quote = dquote →
  ∃ a rest, repr_char quote c ++ t = a :: rest ∧ a ≠ quote.
Proof.
  intros Hq.
  assert (backslash ≠ quote) as Hbq by (by destruct Hq as [-> | ->]).
  unfold repr_char.
  destruct ((c =? quote) || (c =? backslash))%N eqn:He; [by eexists _, _|].
  apply orb_false_iff in He as [Hcq%N.eqb_neq _].
  repeat case_match; by eexists _, _.
Qed.

Lemma repr_body_inj quote s1 s2 t :
  quote = squote ∨ quote = dquote →
  valid_str s1 → valid_str s2 →
  repr_body quote s1 ++ quote :: t = repr_body quote s2 ++ quote :: t →
  s1 = s2.
Proof.
  intros Hq Hv1. revert s2.
  induction Hv1 as [|c1 s1 Hc1 Hv1 IH]; intros s2 Hv2;
    destruct Hv2 as [|c2 s2 Hc2 Hv2]; simpl; [done | | |].
  - rewrite <-app_assoc.
    destruct (repr_char_head quote c2 (repr_body quote s2 ++ quote :: t) Hq)
      as (a & rest & -> & Ha).
    intros [= Heq _]. by destruct Ha.
  - rewrite <-app_assoc.
    destruct (repr_char_head quote c1 (repr_body quote s1 ++ quote :: t) Hq)
      as (a & rest & -> & Ha).
    intros [= Heq _]. by destruct Ha.
  - rewrite <-!app_assoc. intros Heq.
    apply (f_equal unrepr_char) in Heq.
    rewrite !unrepr_repr_char in Heq by (done || lia).
    injection Heq as -> Hrest. f_equal. by apply IH.
Qed.

Lemma repr_inj s1 s2 t :
  valid_str s1 → valid_str s2 → repr s1 ++ t = repr s2 ++ t → s1 = s2.
Proof.
  intros Hv1 Hv2. unfold repr.
  destruct (contains squote s1 && negb (contains dquote s1)),
           (contains squote s2 && negb (contains dquote s2));
    simpl; rewrite <-!app_assoc; simpl; intros [= Heq];
    by eapply repr_body_inj; [| | |exact Heq]; auto.
Qed.

Lemma violation_description_inj r1 r2 :
  valid_str (raw r1) → valid_str (raw r2) →
  violation_description r1 = violation_description r2 → raw r1 = raw r2.
Proof.
  intros Hv1 Hv2. unfold violation_description.
  intros Heq%(inj (app (py "Unqualified reference "))).
  by apply repr_inj in Heq.
Qed.

End Reading.

(** X11: the description tells the raw text: two violations with the same
    description are anchored at references with the same raw text, the raw
    texts being Python strings, with code points below 0x110000. *)
Theorem description_determines_raw
    (table_aliases table_aliases' : list AliasInfo)
    (standalone_aliases standalone_aliases' : list str)
    (references references' : list BaseSegment)
    (col_aliases col_aliases' : list ColumnAliasInfo)
    (using_cols using_cols' : list str)
    (dialect_name dialect_name' : option str)
    (parent_select parent_select' : option BaseSegment) (v v' : LintResult) :
  v ∈ violations (_lint_references_and_aliases table_aliases standalone_aliases
                    references col_aliases using_cols dialect_name parent_select) →
  v' ∈ violations (_lint_references_and_aliases table_aliases'
                     standalone_aliases' references' col_aliases' using_cols'
                     dialect_name' parent_select') →
  valid_str (raw (anchor v)) →
  valid_str (raw (anchor v')) →
  description v = description v' →
  raw (anchor v) = raw (anchor v').
Proof.
  intros (_ & r & -> & _)%elem_of_violations
         (_ & r' & -> & _)%elem_of_violations.
  apply violation_description_inj.
Qed.


(** ** Rescanning *)

(** X12: scanning only the references that were reported reports them all
    again, with the same violations: the verdict on a reference does not
    depend on the other references. *)
Theorem rescan_of_reported_references
    (table_aliases : list AliasInfo) (standalone_aliases : list str)
    (references : list BaseSegment) (col_aliases : list ColumnAliasInfo)
    (using_cols : list str) (dialect_name : option str)
    (parent_select : option BaseSegment) :
  let result :=
    _lint_references_and_aliases table_aliases standalone_aliases references
      col_aliases using_cols dialect_name parent_select in
  _lint_references_and_aliases table_aliases standalone_aliases
    (anchor <$> violations result) col_aliases using_cols dialect_name
    parent_select
  = result.
Proof.
  intros result. unfold result. rewrite anchors_scan, !scan_unfold.
  case_bool_decide; [done|].
  rewrite list_filter_filter.
  rewrite (list_filter_iff _ (fails table_aliases col_aliases using_cols
                                dialect_name)); [done|].
  intros r. tauto.
Qed.

End Properties.

(** ** Evaluation on the examples *)

#[local] Existing Instance unicode_example.

Example docstring_anti_pattern :
  _lint_references_and_aliases [foo; vee] [] [ref_a; ref_foo_a; ref_b] [] []
    (Some (py "ansi")) None
  = Some [ {| anchor := ref_a;
              description := py "Unqualified reference 'a' found in select with more than one referenced table/view." |};
           {| anchor := ref_b;
              description := py "Unqualified reference 'b' found in select with more than one referenced table/view." |} ].
Proof. vm_compute. reflexivity. Qed.

Example docstring_best_practice :
  _lint_references_and_aliases [foo; vee] [] [ref_foo_a] [] []
    (Some (py "ansi")) None
  = None.
Proof. reflexivity. Qed.

Example repr_plain : PyStr.repr (py "abc") = py "'abc'".
Proof. reflexivity. Qed.

Example repr_apostrophe :
  PyStr.repr (py "it's") = PyStr.dquote :: py "it's" ++ [PyStr.dquote].
Proof. reflexivity. Qed.

Example repr_both_quotes :
  PyStr.repr (PyStr.dquote :: py "it's")
  = PyStr.squote :: PyStr.dquote :: py "it\'s'".
Proof. reflexivity. Qed.

Example repr_backslash : PyStr.repr (py "a\b") = py "'a\\b'".
Proof. reflexivity. Qed.

Example repr_control :
  PyStr.repr [9; 127; 160; 173; 255]%N = py "'\t\x7f\xa0\xad" ++ 255%N :: py "'".
Proof. reflexivity. Qed.

(** U+65E5 and U+672C are copied, the line separator U+2028 is escaped. *)
Example repr_cjk :
  PyStr.repr (raw ref_cjk)
  = PyStr.squote :: 26085%N :: 26412%N :: py "\u2028'".
Proof. reflexivity. Qed.

(** The language tag U+E0001 is not printable, the emoji U+1F600 is. *)
Example repr_astral :
  PyStr.repr [917505; 128512]%N = py "'\U000e0001" ++ 128512%N :: py "'".
Proof. reflexivity. Qed.

(** A lone surrogate. *)
Example repr_surrogate : PyStr.repr [55296]%N = py "'\ud800'".
Proof. reflexivity. Qed.

Lemma is_qualified_reference_four_conditions_witness :
  _is_qualified_reference ref_a [py "foo"; py "vee"] [] [] (Some (py "ansi")) = false
  ∧ violation_of ref_a ∈
      violations (_lint_references_and_aliases [foo; vee] [] [ref_foo_a; ref_a]
                    [] [] (Some (py "ansi")) None).
Proof.
  destruct (is_qualified_reference_four_conditions
              ref_a [py "foo"; py "vee"] [] [] (Some (py "ansi"))) as [_ Hnone].
  destruct Hnone as [Hfalse Hscan].
  - compute_done.
  - split; [exact Hfalse|].
    apply (Hscan [foo; vee] [] [ref_foo_a; ref_a] [] None);
      [reflexivity | reflexivity | simpl; lia |].
    compute_done.
Defined.
Lemma col_alias_names_excludes_own_alias_only_witness :
  violations (_lint_references_and_aliases [foo; vee] []
                [ref_a; ref_a_order_by] [alias_a] [] None None)
  = [violation_of ref_a]
  ∧ ∀ v, v ∈ violations (_lint_references_and_aliases [foo; vee] []
                            [ref_a; ref_a_order_by] [alias_a] [] None None) →
         anchor v ≠ ref_a_order_by.
Proof.
  destruct (col_alias_names_excludes_own_alias_only [foo; vee] []
              [ref_a; ref_a_order_by] [alias_a] [] None None)
    as (_ & _ & Hscan & Hkept).
  split.
  - rewrite Hscan by (simpl; lia). vm_compute. reflexivity.
  - destruct (Hkept ref_a_order_by alias_a ref_a) as (_ & _ & Hq).
    + compute_done.
    + compute_done.
    + reflexivity.
    + compute_done.
    + apply Hq. reflexivity.
Defined.

Lemma single_source_no_violations_witness :
  _lint_references_and_aliases [foo] [] [ref_a; ref_b] [] [] None None = None.
Proof.
  apply single_source_no_violations. simpl. lia.
Defined.

Lemma redshift_table_alias_exception_witness :
  (∀ v, v ∈ violations (_lint_references_and_aliases [sup; tbl2] [] [ref_sup]
                          [] [] (Some (py "redshift")) None) →
        anchor v ≠ ref_sup)
  ∧ (∃ v, v ∈ violations (_lint_references_and_aliases [sup; tbl2] [] [ref_sup]
                            [] [] None None)
          ∧ anchor v = ref_sup)
  ∧ (∃ v, v ∈ violations (_lint_references_and_aliases [sup; tbl2] [] [ref_sup]
                            [] [] (Some (py "ansi")) None)
          ∧ anchor v = ref_sup).
Proof.
  destruct (redshift_table_alias_exception [sup; tbl2] [] [ref_sup] [] [] None
              ref_sup) as [Hredshift Hother].
  - simpl. lia.
  - compute_done.
  - reflexivity.
  - exists sup. split; [compute_done | reflexivity].
  - compute_done.
  - compute_done.
  - split; [exact Hredshift|].
    split; apply Hother; discriminate.
Defined.

Lemma using_column_exception_witness :
  let result :=
    _lint_references_and_aliases [foo; vee] [] [ref_id; ref_b] [] [py "id"]
      (Some (py "ansi")) None in
  (∀ v, v ∈ violations result → anchor v ≠ ref_id)
  ∧ (∃ v, v ∈ violations result ∧ anchor v = ref_b).
Proof.
  destruct (using_column_exception foo vee [] [ref_id; ref_b] [] (py "id")
              (Some (py "ansi")) None) as [Hid Hother].
  split.
  - apply Hid; [compute_done | reflexivity | reflexivity].
  - apply Hother; [compute_done | reflexivity | discriminate | compute_done
                  | compute_done].
Defined.

Lemma more_exceptions_fewer_violations_witness :
  violations (_lint_references_and_aliases [foo; vee] [] [ref_a; ref_b]
                (alias_b :: [alias_a]) (py "a" :: [py "id"]) None None)
  `sublist_of`
  violations (_lint_references_and_aliases [foo; vee] [] [ref_a; ref_b]
                [alias_a] [py "id"] None None).
Proof.
  apply more_exceptions_fewer_violations.
  - intros x Hx. by apply list_elem_of_further.
  - intros x Hx. by apply list_elem_of_further.
Defined.

Example enlarged_exceptions_values :
  violations (_lint_references_and_aliases [foo; vee] [] [ref_a; ref_b]
                [alias_a] [py "id"] None None)
  = [violation_of ref_a; violation_of ref_b]
  ∧ violations (_lint_references_and_aliases [foo; vee] [] [ref_a; ref_b]
                  (alias_b :: [alias_a]) (py "a" :: [py "id"]) None None)
    = [].
Proof. split; vm_compute; reflexivity. Qed.

(** C8, the claim as worded, at an empty column alias list: the result is
    not [None]. *)
Lemma empty_col_aliases_not_none :
  let col_aliases := [] in
  _lint_references_and_aliases [foo; vee] [] [ref_a] col_aliases [] None None
  = Some [ {| anchor := ref_a;
              description := py "Unqualified reference 'a' found in select with more than one referenced table/view." |} ]
  ∧ _lint_references_and_aliases [foo; vee] [] [ref_a] col_aliases [] None None
    ≠ None.
Proof. split; [vm_compute; reflexivity | discriminate]. Qed.

Lemma result_none_iff_nothing_flagged_witness :
  _lint_references_and_aliases [foo; vee] [] [] [alias_a] [] None None = None
  ∧ _lint_references_and_aliases [foo; vee] [] [ref_foo_a; ref_id] [] [py "id"]
      None None = None.
Proof.
  split.
  - destruct (result_none_iff_nothing_flagged [foo; vee] [] [] [alias_a] []
                None None) as (_ & _ & _ & _ & Hrefs & _).
    + simpl. lia.
    + apply Hrefs. reflexivity.
  - destruct (result_none_iff_nothing_flagged [foo; vee] []
                [ref_foo_a; ref_id] [] [py "id"] None None)
      as (_ & Hnil & _).
    + simpl. lia.
    + apply Hnil. reflexivity.
Defined.
(** C6, the claim as worded, at a reference whose raw text holds an
    apostrophe: [repr] encloses it in double quotes. *)
Lemma description_not_single_quoted :
  ∃ v, v ∈ violations (_lint_references_and_aliases [foo; vee] [] [ref_its]
                         [] [] None None)
       ∧ anchor v = ref_its
       ∧ description v
         = py "Unqualified reference "
           ++ PyStr.dquote :: py "`it's`"
           ++ PyStr.dquote ::
              py " found in select with more than one referenced table/view."
       ∧ description v ≠ single_quoted_description (raw (anchor v)).
Proof.
  exists (violation_of ref_its). split_and!.
  - compute_done.
  - reflexivity.
  - vm_compute. reflexivity.
  - vm_compute. discriminate.
Qed.

Lemma violation_description_is_repr_witness :
  description (violation_of ref_a)
  = py "Unqualified reference 'a' found in select with more than one referenced table/view."
  ∧ description (violation_of ref_its)
    ≠ single_quoted_description (raw ref_its)
  ∧ description (violation_of ref_nihon)
    = single_quoted_description (raw ref_nihon)
  ∧ description (violation_of ref_cjk)
    ≠ single_quoted_description (raw ref_cjk).
Proof.
  pose proof (λ r Hin,
    violation_description_is_repr [foo; vee] []
      [ref_a; ref_its; ref_nihon; ref_cjk] [] [] None None (violation_of r) Hin)
    as Hthm.
  split_and!.
  - destruct (Hthm ref_a) as (_ & _ & _ & Hq); [compute_done|].
    apply Hq. reflexivity.
  - destruct (Hthm ref_its) as (_ & _ & _ & Hq); [compute_done|].
    intros Heq. apply Hq in Heq. discriminate Heq.
  - destruct (Hthm ref_nihon) as (_ & _ & _ & Hq); [compute_done|].
    apply Hq. reflexivity.
  - destruct (Hthm ref_cjk) as (_ & _ & _ & Hq); [compute_done|].
    intros Heq. apply Hq in Heq. discriminate Heq.
Defined.

Lemma qualified_reference_never_flagged_witness :
  qualification ref_foo_a = py "qualified"
  ∧ ∀ v, v ∈ violations (_lint_references_and_aliases [foo; vee] []
                           [ref_a; ref_foo_a; ref_b] [] [] None None) →
         anchor v ≠ ref_foo_a.
Proof.
  split; [reflexivity|].
  apply qualified_reference_never_flagged. reflexivity.
Defined.

(** [SELECT a AS a FROM foo JOIN vee ...]: the alias does not qualify the
    reference of its own expression. *)
Lemma reference_reported_iff_witness :
  ∃ v, v ∈ violations (_lint_references_and_aliases [foo; vee] [] [ref_a]
                         [alias_a] [] None None)
       ∧ anchor v = ref_a.
Proof.
  apply reference_reported_iff. split_and!.
  - simpl. lia.
  - compute_done.
  - reflexivity.
  - intros c Hc _. apply list_elem_of_singleton in Hc. subst c. compute_done.
  - compute_done.
  - intros [Hd _]. discriminate Hd.
Defined.

Lemma violations_references_permutation_witness :
  violations (_lint_references_and_aliases [foo; vee] [] [ref_a; ref_b]
                [] [] None None)
  ≡ₚ violations (_lint_references_and_aliases [foo; vee] [] [ref_b; ref_a]
                   [] [] None None).
Proof.
  apply violations_references_permutation. apply perm_swap.
Defined.

Lemma exception_lists_are_sets_witness :
  _lint_references_and_aliases [foo; vee] [] [ref_a; ref_b; ref_id]
    [alias_a; alias_b] [py "id"; py "b"] None None
  = _lint_references_and_aliases [foo; vee] [] [ref_a; ref_b; ref_id]
      [alias_b; alias_a; alias_b] [py "b"; py "id"; py "b"] None None.
Proof.
  apply exception_lists_are_sets.
  - intros name. rewrite !elem_of_cons. tauto.
  - intros c. rewrite !elem_of_cons. tauto.
Defined.

Lemma table_alias_names_matter_only_for_redshift_witness :
  _lint_references_and_aliases [sup; tbl2] [] [ref_sup; ref_a] [] []
    (Some (py "ansi")) None
  = _lint_references_and_aliases [foo; vee; tbl2] [] [ref_sup; ref_a] [] []
      None None.
Proof.
  apply table_alias_names_matter_only_for_redshift;
    [simpl; lia | simpl; lia | discriminate | discriminate].
Defined.

Lemma more_table_sources_fewer_violations_witness :
  violations (_lint_references_and_aliases [foo; sup; vee] [] [ref_sup; ref_a]
                [] [] (Some (py "redshift")) None)
  `sublist_of`
  violations (_lint_references_and_aliases [foo; vee] [] [ref_sup; ref_a]
                [] [] (Some (py "redshift")) None).
Proof.
  apply more_table_sources_fewer_violations.
  - simpl. lia.
  - apply sublist_skip, sublist_cons, sublist_skip, sublist_nil.
Defined.

Lemma violations_at_most_one_per_reference_witness :
  let result :=
    _lint_references_and_aliases [foo; vee] [] [ref_a; ref_foo_a; ref_b] [] []
      None None in
  length (violations result) ≤ 3 ∧ NoDup (anchor <$> violations result).
Proof.
  destruct (violations_at_most_one_per_reference [foo; vee] []
              [ref_a; ref_foo_a; ref_b] [] [] None None) as [Hlen Hnd].
  split; [exact Hlen|]. apply Hnd. compute_done.
Defined.
Lemma description_is_printable_witness :
  all_printable (raw ref_two_lines) = false
  ∧ all_printable (description (violation_of ref_two_lines)) = true
  ∧ all_printable (raw ref_cjk) = false
  ∧ all_printable (description (violation_of ref_cjk)) = true.
Proof.
  split_and!; [reflexivity | | reflexivity |].
  - apply (description_is_printable [foo; vee] [] [ref_two_lines; ref_cjk]
             [] [] None None).
    compute_done.
  - apply (description_is_printable [foo; vee] [] [ref_two_lines; ref_cjk]
             [] [] None None).
    compute_done.
Defined.

Lemma description_determines_raw_witness :
  raw (anchor (violation_of ref_a)) = raw (anchor (violation_of ref_a_order_by)).
Proof.
  apply (description_determines_raw [foo; vee] [foo; vee] [] []
           [ref_a; ref_a_order_by] [ref_a; ref_a_order_by] [] [] [] []
           None None None None).
  - compute_done.
  - compute_done.
  - compute_done.
  - compute_done.
  - reflexivity.
Defined.
